(** * Monte Carlo option pricing: a shallow embedding of [MonteCarlo.py]

    The development embeds the three computational pieces of the script:
    - [reset_parameters], the callback that writes the default parameters
      into the session-state dictionary;
    - [monte_carlo_option_price], the terminal-price pricer;
    - the multi-step sample-path loop of the interactive tab, here
      [simulate_paths].

    Numbers.  numpy's doubles are modelled in exact real arithmetic,
    extended with a single [NaN] for the results that have no real value:
    [np.sqrt] of a negative number and [np.mean] of an empty array.  Every
    arithmetic operation propagates [NaN], as IEEE 754 does.  Rounding,
    overflow to [inf] and underflow to zero are outside the model, and so
    are the limits of the machine: an array may have any length and
    [sigma**2] never raises [OverflowError].  A theorem that states which
    value the program stores reads the same in doubles, operation by
    operation.  A theorem that states a sign, an order, an exact identity
    or finiteness is a statement of exact real arithmetic and says so; in
    doubles it can fail by rounding or at parameters that overflow.

    Randomness.  The process-wide generator is an explicit state: the stream
    of standard-normal draws still to be delivered.  [standard_normal n]
    hands out the first [n] of them and leaves the rest.

    Exceptions.  A computation either returns a value together with the
    generator state it leaves, or raises a Python exception. *)

From Stdlib Require Import Reals Lra ZArith Lia List.
From stdpp Require Import gmap strings list.

Local Open Scope R_scope.

(** ** Floating-point values *)

Inductive npfloat : Type :=
| Fin (x : R)
| NaN.

Definition fadd (a b : npfloat) : npfloat :=
  match a, b with
  | Fin x, Fin y => Fin (x + y)
  | _, _ => NaN
  end.

Definition fsub (a b : npfloat) : npfloat :=
  match a, b with
  | Fin x, Fin y => Fin (x - y)
  | _, _ => NaN
  end.

Definition fmul (a b : npfloat) : npfloat :=
  match a, b with
  | Fin x, Fin y => Fin (x * y)
  | _, _ => NaN
  end.

(** [np.exp] on a scalar. *)
Definition fexp (a : npfloat) : npfloat :=
  match a with
  | Fin x => Fin (exp x)
  | NaN => NaN
  end.

(** [np.sqrt] on a scalar: [nan] below zero. *)
Definition np_sqrt (x : R) : npfloat :=
  if Rlt_dec x 0 then NaN else Fin (sqrt x).

(** [np.maximum] on two scalars; unlike [np.fmax] it propagates [nan]. *)
Definition fmaximum (a b : npfloat) : npfloat :=
  match a, b with
  | Fin x, Fin y => Fin (Rmax x y)
  | _, _ => NaN
  end.

(** Division of a sum by an element count, as [np.mean] does it: [0/0] is
    [nan]. *)
Definition fdiv_count (s : npfloat) (n : nat) : npfloat :=
  match n with
  | O => NaN
  | S _ => fmul s (Fin (/ INR n))
  end.

(** Order, sign and equality tests on floats: every comparison with [nan]
    is false, [nan == nan] included. *)
Definition fle (a b : npfloat) : Prop :=
  match a, b with
  | Fin x, Fin y => x <= y
  | _, _ => False
  end.

Definition flt (a b : npfloat) : Prop :=
  match a, b with
  | Fin x, Fin y => x < y
  | _, _ => False
  end.



(** ** One-dimensional arrays *)

Abbreviation ndarray := (list npfloat).

(** Scalar-with-array broadcasting and element-wise operations. *)
Definition bc_mul (a : npfloat) (v : ndarray) : ndarray := map (fmul a) v.
Definition bc_add (a : npfloat) (v : ndarray) : ndarray := map (fadd a) v.
Definition bc_sub_r (v : ndarray) (a : npfloat) : ndarray :=
  map (fun x => fsub x a) v.
Definition bc_sub_l (a : npfloat) (v : ndarray) : ndarray :=
  map (fun x => fsub a x) v.
Definition np_exp (v : ndarray) : ndarray := map fexp v.
Definition np_maximum (v : ndarray) (a : npfloat) : ndarray :=
  map (fun x => fmaximum x a) v.
Definition arr_mul (u v : ndarray) : ndarray := zip_with fmul u v.

Definition np_sum (v : ndarray) : npfloat := fold_right fadd (Fin 0) v.

Definition np_mean (v : ndarray) : npfloat :=
  fdiv_count (np_sum v) (length v).

(** ** Exceptions and the random generator *)

Inductive exn : Type :=
| ValueError
| ZeroDivisionError
| IndexError.

(** The generator state: the draws not yet consumed. *)
Definition rng : Type := nat -> R.

Inductive outcome (A : Type) : Type :=
| Return (a : A) (g : rng)
| Raise (e : exn).

Arguments Return {A} a g.
Arguments Raise {A} e.

Definition M (A : Type) : Type := rng -> outcome A.

Definition ret {A} (a : A) : M A := fun g => Return a g.

Definition raise {A} (e : exn) : M A := fun _ => Raise e.

Definition bind {A B} (c : M A) (k : A -> M B) : M B :=
  fun g =>
    match c g with
    | Return a g' => k a g'
    | Raise e => Raise e
    end.

Notation "x <- c ;; k" := (bind c (fun x => k))
  (at level 100, c at next level, right associativity).

(** The first [n] draws of a generator, and the generator left after them. *)
Definition take_draws (n : nat) (g : rng) : ndarray :=
  map (fun k => Fin (g k)) (seq 0 n).

Definition drop_draws (n : nat) (g : rng) : rng :=
  fun k => g (n + k)%nat.

(** [np.random.standard_normal(size)]: a negative size is a [ValueError]. *)
Definition standard_normal (size : Z) : M ndarray :=
  fun g =>
    if (size <? 0)%Z then Raise ValueError
    else
      let n := Z.to_nat size in
      Return (take_draws n g) (drop_draws n g).

(** ** The pricer *)

Definition monte_carlo_option_price
    (S K T r sigma : R) (option_type : string) (num_paths : Z)
  : M (npfloat * ndarray) :=
  Z <- standard_normal num_paths ;;
  let S_T :=
    bc_mul (Fin S)
      (np_exp (bc_add (Fin ((r - 0.5 * (sigma * sigma)) * T))
                 (bc_mul (fmul (Fin sigma) (np_sqrt T)) Z))) in
  let payoff :=
    if String.eqb option_type "call"
    then np_maximum (bc_sub_r S_T (Fin K)) (Fin 0)
    else np_maximum (bc_sub_l (Fin K) S_T) (Fin 0) in
  let price := fmul (Fin (exp (- r * T))) (np_mean payoff) in
  ret (price, S_T).

(** ** The sample-path loop

    In the script the loop sits inline in the interactive tab with
    [num_steps = 100] and [num_sample_paths = 5]; both are parameters here
    and [sample_paths_tab] below instantiates them. *)

Abbreviation grid := (list ndarray).

(** [np.zeros((rows, cols))]. *)
Definition np_zeros (rows cols : nat) : grid :=
  replicate rows (replicate cols (Fin 0)).

(** [paths[i]] as an expression: out of range is an [IndexError]. *)
Definition get_row (paths : grid) (i : nat) : M ndarray :=
  match paths !! i with
  | Some row => ret row
  | None => raise IndexError
  end.

(** [paths[i] = row]: out of range is an [IndexError]. *)
Definition set_row (paths : grid) (i : nat) (row : ndarray) : M grid :=
  if decide (i < length paths)%nat
  then ret (<[i := row]> paths)
  else raise IndexError.

(** [T / num_steps] on a Python float and int. *)
Definition float_div_int (x : R) (n : nat) : M R :=
  match n with
  | O => raise ZeroDivisionError
  | S _ => ret (x / INR n)
  end.

(** The body of [for i in range(1, num_steps + 1)]. *)
Definition path_step (r sigma dt : R) (num_sample_paths : nat)
    (i : nat) (paths : grid) : M grid :=
  Z <- standard_normal (Z.of_nat num_sample_paths) ;;
  prev <- get_row paths (i - 1) ;;
  set_row paths i
    (arr_mul prev
       (np_exp (bc_add (Fin ((r - 0.5 * (sigma * sigma)) * dt))
                  (bc_mul (fmul (Fin sigma) (np_sqrt dt)) Z)))).

Fixpoint for_in (idx : list nat) (body : nat -> grid -> M grid)
    (paths : grid) : M grid :=
  match idx with
  | [] => ret paths
  | i :: rest => paths' <- body i paths ;; for_in rest body paths'
  end.

Definition simulate_paths (S T r sigma : R)
    (num_steps num_sample_paths : nat) : M grid :=
  dt <- float_div_int T num_steps ;;
  let paths := np_zeros (num_steps + 1) num_sample_paths in
  paths <- set_row paths 0 (replicate num_sample_paths (Fin S)) ;;
  for_in (seq 1 num_steps) (path_step r sigma dt num_sample_paths) paths.

Definition sample_paths_tab (S T r sigma : R) : M grid :=
  simulate_paths S T r sigma 100 5.

(** ** Session state and the reset callback *)

Inductive value : Type :=
| VFloat (x : R)
| VStr (s : string)
| VInt (n : Z).

Definition reset_parameters (session_state : gmap string value)
  : gmap string value :=
  let st := <["S_slider" := VFloat 100.0]> session_state in
  let st := <["K_slider" := VFloat 100.0]> st in
  let st := <["T_slider" := VFloat 1.0]> st in
  let st := <["r_slider" := VFloat 0.05]> st in
  let st := <["sigma_slider" := VFloat 0.2]> st in
  let st := <["option_type_radio" := VStr "call"]> st in
  <["num_paths_slider" := VInt 10000]> st.

(** The keys written by [reset_parameters]. *)
Definition reset_keys : list string :=
  ["S_slider"; "K_slider"; "T_slider"; "r_slider"; "sigma_slider";
   "option_type_radio"; "num_paths_slider"].

(** ** Reference formulas

    The scalar formulas the array code is compared with: first on floats,
    then on plain reals, where they apply whenever no [nan] arises. *)

(** [S * exp((r - 0.5 sigma^2) t + sigma sqrt(t) z)] on floats. *)
Definition gbm_factor (t r sigma : R) (z : npfloat) : npfloat :=
  fexp (fadd (Fin ((r - 0.5 * (sigma * sigma)) * t))
          (fmul (fmul (Fin sigma) (np_sqrt t)) z)).

Definition terminal_price (S T r sigma : R) (z : npfloat) : npfloat :=
  fmul (Fin S) (gbm_factor T r sigma z).

Definition payoff (option_type : string) (K : R) (s : npfloat) : npfloat :=
  if String.eqb option_type "call"
  then fmaximum (fsub s (Fin K)) (Fin 0)
  else fmaximum (fsub (Fin K) s) (Fin 0).

(** The same on reals. *)
Definition gbm_factor_R (t r sigma z : R) : R :=
  exp ((r - 0.5 * (sigma * sigma)) * t + sigma * sqrt t * z).

Definition terminal_price_R (S T r sigma z : R) : R :=
  S * gbm_factor_R T r sigma z.

Definition payoff_R (option_type : string) (K s : R) : R :=
  if String.eqb option_type "call" then Rmax (s - K) 0 else Rmax (K - s) 0.

Definition sum_R (l : list R) : R := fold_right Rplus 0 l.

Definition mean_R (l : list R) : R := sum_R l / INR (length l).

(** The real draws behind [take_draws]. *)
Definition real_draws (n : nat) (g : rng) : list R := map g (seq 0 n).

(** What a run of the pricer returned, if it returned. *)
Definition price_of (o : outcome (npfloat * ndarray)) : option npfloat :=
  match o with
  | Return (price, _) _ => Some price
  | Raise _ => None
  end.

Definition samples_of (o : outcome (npfloat * ndarray)) : option ndarray :=
  match o with
  | Return (_, S_T) _ => Some S_T
  | Raise _ => None
  end.

(** The price estimate of a run is a non-negative number. *)
Definition price_nonneg (o : outcome (npfloat * ndarray)) : Prop :=
  exists price, price_of o = Some price /\ fle (Fin 0) price.



(** [paths[i][j]], if in range. *)
Definition entry (paths : grid) (i j : nat) : option npfloat :=
  match paths !! i with
  | Some row => row !! j
  | None => None
  end.

(** The value of a path at step [i], column [j], by the one-step recurrence:
    [S] at step 0, then one factor per step.  Step [i + 1] uses draw number
    [i * n + j] of the generator, [n] being the number of columns. *)
Fixpoint path_value (S dt r sigma : R) (n : nat) (g : rng) (i j : nat)
  : npfloat :=
  match i with
  | O => Fin S
  | S i' =>
      fmul (path_value S dt r sigma n g i' j)
           (gbm_factor dt r sigma (Fin (g (i' * n + j)%nat)))
  end.

Fixpoint path_value_R (S dt r sigma : R) (n : nat) (g : rng) (i j : nat)
  : R :=
  match i with
  | O => S
  | S i' =>
      path_value_R S dt r sigma n g i' j *
      gbm_factor_R dt r sigma (g (i' * n + j)%nat)
  end.

(** Row [i] of the grid, as the recurrence gives it. *)
Definition path_row (S dt r sigma : R) (n : nat) (g : rng) (i : nat)
  : ndarray :=
  map (path_value S dt r sigma n g i) (seq 0 n).

(** Every entry of a grid is a strictly positive number. *)
Definition grid_positive (paths : grid) : Prop :=
  forall i j x, paths !! i = Some x -> forall y, x !! j = Some y -> flt (Fin 0) y.

Definition grid_of (o : outcome grid) : option grid :=
  match o with
  | Return paths _ => Some paths
  | Raise _ => None
  end.

(** A run of the path loop returned a grid with strictly positive entries. *)
Definition returns_positive_grid (o : outcome grid) : Prop :=
  exists paths, grid_of o = Some paths /\ grid_positive paths.

(** ** The rest of the interactive tab

    What the tab computes around the two routines above: the time axis of
    the path plot, the columns handed to the plotting calls, and the order
    in which the pricer and the path loop use the generator.  Of the
    rendering calls only [ax.hist] is modelled, and of it only whether it
    raises: it is the one that can stop the script before the path code. *)

(** [np.linspace(start, stop, num)] with the default [endpoint=True]:
    [arange(num) * step + start] with [step = (stop - start) / (num - 1)],
    the last entry then overwritten with [stop].  With a single point there
    is no step and the multiplier is [stop - start]. *)
Definition np_linspace (start stop : R) (num : nat) : ndarray :=
  let div := (num - 1)%nat in
  let delta := stop - start in
  let y := map INR (seq 0 num) in
  let y :=
    if (0 <? div)%nat
    then map (fun v => v * (delta / INR div)) y
    else map (fun v => v * delta) y in
  let y := map (fun v => Fin (v + start)) y in
  if (1 <? num)%nat then <[(num - 1)%nat := Fin stop]> y else y.

(** Entry [j] of every row, in row order. *)
Fixpoint column_entries (paths : grid) (j : nat) : M ndarray :=
  match paths with
  | [] => ret []
  | row :: rest =>
      match row !! j with
      | Some x => col <- column_entries rest j ;; ret (x :: col)
      | None => raise IndexError
      end
  end.

(** [paths[:, j]] on an array of [num_cols] columns: a column index beyond
    the width is an [IndexError], also when the array has no rows.  The
    width belongs to the array's shape; a list of rows does not record it
    when it is empty, so it is passed along. *)
Definition get_column (num_cols : nat) (paths : grid) (j : nat) : M ndarray :=
  if decide (j < num_cols)%nat
  then column_entries paths j
  else raise IndexError.

(** The series of [for j in range(num_sample_paths)]: one column per [j]. *)
Fixpoint path_columns (num_cols : nat) (idx : list nat) (paths : grid)
  : M (list ndarray) :=
  match idx with
  | [] => ret []
  | j :: rest =>
      col <- get_column num_cols paths j ;;
      cols <- path_columns num_cols rest paths ;;
      ret (col :: cols)
  end.

Definition is_nan (a : npfloat) : bool :=
  match a with
  | NaN => true
  | Fin _ => false
  end.

(** [ax.hist(x, bins=50)], as far as raising goes.  The bin range is taken
    from the entries that are numbers; when the array is not empty and
    holds none, the range is [[nan, nan]] and the call raises [ValueError].
    An empty array is drawn as an empty histogram. *)
Definition ax_hist (x : ndarray) : M unit :=
  match x with
  | [] => ret tt
  | _ :: _ => if forallb is_nan x then raise ValueError else ret tt
  end.

(** What the path plot is drawn from: the time axis and the columns. *)
Record path_plot : Type := {
  t_grid : ndarray;
  series : list ndarray
}.

(** The work of the interactive tab, in program order: the pricer always
    runs and its sample goes to the histogram; the path loop, the time axis
    and the columns only when the check box is ticked. *)
Definition interactive_tab (S K T r sigma : R) (option_type : string)
    (num_paths : Z) (show_sample_paths : bool)
  : M (npfloat * ndarray * option path_plot) :=
  priced <- monte_carlo_option_price S K T r sigma option_type num_paths ;;
  _ <- ax_hist (snd priced) ;;
  if show_sample_paths then
    paths <- sample_paths_tab S T r sigma ;;
    let axis := np_linspace 0 T (100 + 1) in
    cols <- path_columns 5 (seq 0 5) paths ;;
    ret (fst priced, snd priced, Some {| t_grid := axis; series := cols |})
  else
    ret (fst priced, snd priced, None).

(** ** The sidebar widgets

    The keyed input widgets as the sidebar declares them: bounds and initial
    value of each slider, options of the radio button. *)

Inductive widget : Type :=
| FloatSlider (key : string) (min_value max_value initial : R)
| IntSlider (key : string) (min_value max_value initial step : Z)
| Radio (key : string) (options : list string).

Definition sidebar_widgets : list widget :=
  [ FloatSlider "S_slider" 50.0 150.0 100.0;
    FloatSlider "K_slider" 50.0 150.0 100.0;
    FloatSlider "T_slider" 0.1 5.0 1.0;
    FloatSlider "r_slider" 0.0 0.2 0.05;
    FloatSlider "sigma_slider" 0.1 1.0 0.2;
    Radio "option_type_radio" ["call"; "put"];
    IntSlider "num_paths_slider" 1000 50000 10000 1000 ].

Definition widget_key (w : widget) : string :=
  match w with
  | FloatSlider key _ _ _ => key
  | IntSlider key _ _ _ _ => key
  | Radio key _ => key
  end.

(** The value a widget shows on a fresh session: the slider's initial value,
    the radio button's first option. *)
Definition widget_initial (w : widget) : option value :=
  match w with
  | FloatSlider _ _ _ initial => Some (VFloat initial)
  | IntSlider _ _ _ initial _ => Some (VInt initial)
  | Radio _ options => VStr <$> head options
  end.

(** A value of the widget's type within its declared bounds or options. *)
Definition widget_admits (w : widget) (v : value) : Prop :=
  match w, v with
  | FloatSlider _ lo hi _, VFloat x => lo <= x <= hi
  | IntSlider _ lo hi _ _, VInt n => (lo <= n <= hi)%Z
  | Radio _ options, VStr s => In s options
  | _, _ => False
  end.

(** Some declared widget with this key admits the value. *)
Definition sidebar_admits (key : string) (v : value) : Prop :=
  exists w, In w sidebar_widgets /\ widget_key w = key /\ widget_admits w v.

(** Parameters every one of which its sidebar widget admits. *)
Definition sidebar_parameters (S K T r sigma : R) (option_type : string)
    (num_paths : Z) : Prop :=
  sidebar_admits "S_slider" (VFloat S) /\
  sidebar_admits "K_slider" (VFloat K) /\
  sidebar_admits "T_slider" (VFloat T) /\
  sidebar_admits "r_slider" (VFloat r) /\
  sidebar_admits "sigma_slider" (VFloat sigma) /\
  sidebar_admits "option_type_radio" (VStr option_type) /\
  sidebar_admits "num_paths_slider" (VInt num_paths).

(** ** Further reference formulas *)


Definition plot_of (o : outcome (npfloat * ndarray * option path_plot))
  : option (option path_plot) :=
  match o with
  | Return (_, _, plot) _ => Some plot
  | Raise _ => None
  end.

Definition priced_of (o : outcome (npfloat * ndarray * option path_plot))
  : option (npfloat * ndarray) :=
  match o with
  | Return (price, S_T, _) _ => Some (price, S_T)
  | Raise _ => None
  end.

Definition generator_of {A} (o : outcome A) : option rng :=
  match o with
  | Return _ g => Some g
  | Raise _ => None
  end.

(** * Properties *)

(** ** Floats and arrays *)

Lemma np_sqrt_nonneg (x : R) : 0 <= x -> np_sqrt x = Fin (sqrt x).
Proof.
  intros Hx. unfold np_sqrt. destruct (Rlt_dec x 0) as [Hlt|_]; [lra | reflexivity].
Qed.

Lemma np_sqrt_neg (x : R) : x < 0 -> np_sqrt x = NaN.
Proof.
  intros Hx. unfold np_sqrt. destruct (Rlt_dec x 0) as [_|Hge]; [reflexivity | lra].
Qed.

Lemma gbm_factor_real (t r sigma z : R) :
  0 <= t -> gbm_factor t r sigma (Fin z) = Fin (gbm_factor_R t r sigma z).
Proof.
  intros Ht. unfold gbm_factor, gbm_factor_R.
  rewrite (np_sqrt_nonneg t Ht). reflexivity.
Qed.

Lemma gbm_factor_nan (t r sigma : R) (z : npfloat) :
  t < 0 -> gbm_factor t r sigma z = NaN.
Proof.
  intros Ht. unfold gbm_factor. rewrite (np_sqrt_neg t Ht). reflexivity.
Qed.

Lemma gbm_factor_R_pos (t r sigma z : R) : 0 < gbm_factor_R t r sigma z.
Proof. apply exp_pos. Qed.

Lemma payoff_real (option_type : string) (K s : R) :
  payoff option_type K (Fin s) = Fin (payoff_R option_type K s).
Proof.
  unfold payoff, payoff_R. destruct (String.eqb option_type "call"); reflexivity.
Qed.

Lemma payoff_R_nonneg (option_type : string) (K s : R) :
  0 <= payoff_R option_type K s.
Proof.
  unfold payoff_R. destruct (String.eqb option_type "call"); apply Rmax_r.
Qed.

Lemma sum_R_nonneg (l : list R) :
  (forall x, In x l -> 0 <= x) -> 0 <= sum_R l.
Proof.
  induction l as [|x l IH]; simpl; intros Hl; [lra |].
  assert (0 <= x) by (apply Hl; now left).
  assert (0 <= sum_R l) by (apply IH; intros y Hy; apply Hl; now right).
  lra.
Qed.

(** Indexing commutes with the element-wise operations. *)
Lemma lookup_map {A B} (f : A -> B) (l : list A) (i : nat) :
  map f l !! i = f <$> l !! i.
Proof.
  revert i. induction l as [|a l IH]; intros [|i]; simpl; auto.
Qed.

Lemma np_sum_reals (l : list R) : np_sum (map Fin l) = Fin (sum_R l).
Proof.
  induction l as [|x l IH]; simpl; [reflexivity |].
  unfold np_sum in IH. unfold np_sum. simpl. rewrite IH. reflexivity.
Qed.

Lemma np_mean_reals (l : list R) :
  l <> [] -> np_mean (map Fin l) = Fin (mean_R l).
Proof.
  intros Hl. unfold np_mean, mean_R. rewrite np_sum_reals, length_map.
  destruct l as [|x l]; [congruence | reflexivity].
Qed.

Lemma np_sum_nan (v : ndarray) : In NaN v -> np_sum v = NaN.
Proof.
  induction v as [|a v IH]; simpl; [tauto |].
  intros [-> | Hin]; [reflexivity |].
  unfold np_sum in *. simpl. rewrite (IH Hin). destruct a; reflexivity.
Qed.

Lemma np_mean_nan (v : ndarray) : In NaN v -> np_mean v = NaN.
Proof.
  intros Hin. unfold np_mean. rewrite (np_sum_nan v Hin).
  destruct (length v); reflexivity.
Qed.


Lemma mean_R_nonneg (l : list R) :
  l <> [] -> (forall x, In x l -> 0 <= x) -> 0 <= mean_R l.
Proof.
  intros Hne Hl. unfold mean_R.
  apply Rmult_le_pos; [now apply sum_R_nonneg |].
  apply Rlt_le, Rinv_0_lt_compat, lt_0_INR.
  destruct l; [congruence | simpl; lia].
Qed.

(** ** The generator *)

Lemma standard_normal_run (size : Z) (g : rng) :
  (0 <= size)%Z ->
  standard_normal size g =
    Return (take_draws (Z.to_nat size) g) (drop_draws (Z.to_nat size) g).
Proof.
  intros Hs. unfold standard_normal.
  destruct (Z.ltb_spec size 0); [lia | reflexivity].
Qed.

Lemma standard_normal_negative (size : Z) (g : rng) :
  (size < 0)%Z -> standard_normal size g = Raise ValueError.
Proof.
  intros Hs. unfold standard_normal.
  destruct (Z.ltb_spec size 0); [reflexivity | lia].
Qed.

Lemma take_draws_real (n : nat) (g : rng) :
  take_draws n g = map Fin (real_draws n g).
Proof. unfold take_draws, real_draws. now rewrite map_map. Qed.

Lemma length_take_draws (n : nat) (g : rng) : length (take_draws n g) = n.
Proof. unfold take_draws. now rewrite length_map, length_seq. Qed.

Lemma length_real_draws (n : nat) (g : rng) : length (real_draws n g) = n.
Proof. unfold real_draws. now rewrite length_map, length_seq. Qed.

Lemma take_draws_lookup (n : nat) (g : rng) (i : nat) :
  (i < n)%nat -> take_draws n g !! i = Some (Fin (g i)).
Proof.
  intros Hi. unfold take_draws.
  rewrite lookup_map, lookup_seq_lt by exact Hi. reflexivity.
Qed.

(** ** The pricer *)

(** One run of the pricer, with the vectorised expressions read element by
    element. *)
Lemma pricer_run (S K T r sigma : R) (option_type : string) (num_paths : Z)
    (g : rng) :
  (0 <= num_paths)%Z ->
  let n := Z.to_nat num_paths in
  let S_T := map (terminal_price S T r sigma) (take_draws n g) in
  monte_carlo_option_price S K T r sigma option_type num_paths g =
    Return (fmul (Fin (exp (- r * T))) (np_mean (map (payoff option_type K) S_T)),
            S_T)
           (drop_draws n g).
Proof.
  intros Hn n S_T. unfold monte_carlo_option_price, bind.
  rewrite standard_normal_run by exact Hn. fold n.
  assert (HS : bc_mul (Fin S)
      (np_exp (bc_add (Fin ((r - 0.5 * (sigma * sigma)) * T))
                 (bc_mul (fmul (Fin sigma) (np_sqrt T)) (take_draws n g)))) = S_T).
  { unfold bc_mul, np_exp, bc_add, S_T. rewrite !map_map. reflexivity. }
  rewrite HS. unfold ret. do 3 f_equal.
  unfold payoff, np_maximum, bc_sub_r, bc_sub_l.
  destruct (String.eqb option_type "call"); rewrite map_map; reflexivity.
Qed.

Lemma pricer_negative_size (S K T r sigma : R) (option_type : string)
    (num_paths : Z) (g : rng) :
  (num_paths < 0)%Z ->
  monte_carlo_option_price S K T r sigma option_type num_paths g =
    Raise ValueError.
Proof.
  intros Hn. unfold monte_carlo_option_price, bind.
  now rewrite standard_normal_negative.
Qed.

Lemma samples_real (S T r sigma : R) (n : nat) (g : rng) :
  0 <= T ->
  map (terminal_price S T r sigma) (take_draws n g) =
  map Fin (map (terminal_price_R S T r sigma) (real_draws n g)).
Proof.
  intros HT. rewrite take_draws_real, !map_map. apply map_ext. intros z.
  unfold terminal_price, terminal_price_R. now rewrite gbm_factor_real.
Qed.

Lemma samples_nan (S T r sigma : R) (n : nat) (g : rng) :
  T < 0 ->
  map (terminal_price S T r sigma) (take_draws n g) = repeat NaN n.
Proof.
  intros HT. unfold take_draws. rewrite map_map.
  assert (Hl : forall l : list nat,
    map (fun k => terminal_price S T r sigma (Fin (g k))) l =
    repeat NaN (length l)).
  { induction l as [|k l IH]; simpl; [reflexivity |].
    rewrite IH. unfold terminal_price. now rewrite gbm_factor_nan. }
  rewrite Hl, length_seq. reflexivity.
Qed.

Lemma payoffs_real (option_type : string) (K : R) (l : list R) :
  map (payoff option_type K) (map Fin l) =
  map Fin (map (payoff_R option_type K) l).
Proof.
  rewrite !map_map. apply map_ext. intros s. apply payoff_real.
Qed.

Lemma payoff_nan (option_type : string) (K : R) :
  payoff option_type K NaN = NaN.
Proof. unfold payoff. destruct (String.eqb option_type "call"); reflexivity. Qed.

Lemma payoffs_nan (option_type : string) (K : R) (v : ndarray) :
  In NaN v -> In NaN (map (payoff option_type K) v).
Proof.
  intros Hin. rewrite <- (payoff_nan option_type K). now apply in_map.
Qed.

(** The price of a run with a non-negative maturity, on reals. *)
Lemma pricer_price_real (S K T r sigma : R) (option_type : string)
    (num_paths : Z) (g : rng) :
  (1 <= num_paths)%Z -> 0 <= T ->
  price_of (monte_carlo_option_price S K T r sigma option_type num_paths g) =
  Some (Fin (exp (- r * T) *
             mean_R (map (payoff_R option_type K)
                       (map (terminal_price_R S T r sigma)
                          (real_draws (Z.to_nat num_paths) g))))).
Proof.
  intros Hn HT. rewrite pricer_run by lia. cbn [price_of].
  rewrite samples_real by exact HT. rewrite payoffs_real, np_mean_reals.
  - reflexivity.
  - intros Hnil. apply (f_equal (@length R)) in Hnil.
    rewrite !length_map, length_real_draws in Hnil. simpl in Hnil. lia.
Qed.

(** The price of a run with a negative maturity is [nan]. *)
Lemma pricer_price_nan (S K T r sigma : R) (option_type : string)
    (num_paths : Z) (g : rng) :
  (0 <= num_paths)%Z -> T < 0 ->
  price_of (monte_carlo_option_price S K T r sigma option_type num_paths g) =
  Some NaN.
Proof.
  intros Hn HT. rewrite pricer_run by exact Hn. cbn [price_of].
  rewrite samples_nan by exact HT.
  destruct (Z.to_nat num_paths) as [|n]; [reflexivity |].
  rewrite np_mean_nan; [reflexivity |].
  apply payoffs_nan. now left.
Qed.

(** C1.  For [num_paths >= 1] and any generator state, the pricer returns a
    pair [(price, S_T)] and leaves the generator advanced by [num_paths]
    draws.  [S_T] has exactly [num_paths] entries, the [i]-th being
    [S * exp((r - 0.5 sigma^2) T + sigma sqrt(T) Z_i)] for the [i]-th draw
    [Z_i], and [price] is [exp(-r T)] times the mean of the payoffs
    [max(S_T_i - K, 0)] (call) or [max(K - S_T_i, 0)] (otherwise).  The
    formulas are those of float arithmetic; for [0 <= T], where the square
    root is a real number, they are the same formulas on reals. *)
Theorem pricer_returns_formula (S K T r sigma : R) (option_type : string)
    (num_paths : Z) (g : rng) :
  (1 <= num_paths)%Z ->
  exists (price : npfloat) (S_T : ndarray),
    monte_carlo_option_price S K T r sigma option_type num_paths g =
      Return (price, S_T) (drop_draws (Z.to_nat num_paths) g) /\
    length S_T = Z.to_nat num_paths /\
    (forall i, (i < Z.to_nat num_paths)%nat ->
       S_T !! i = Some (terminal_price S T r sigma (Fin (g i)))) /\
    price = fmul (Fin (exp (- r * T))) (np_mean (map (payoff option_type K) S_T)) /\
    (0 <= T ->
     let samples :=
       map (terminal_price_R S T r sigma) (real_draws (Z.to_nat num_paths) g) in
     S_T = map Fin samples /\
     price = Fin (exp (- r * T) * mean_R (map (payoff_R option_type K) samples))).
Proof.
  intros Hn.
  eexists _, _. split; [apply pricer_run; lia |].
  split; [now rewrite length_map, length_take_draws |].
  split.
  { intros i Hi. rewrite lookup_map, take_draws_lookup by exact Hi. reflexivity. }
  split; [reflexivity |].
  intros HT samples. split; [now apply samples_real |].
  pose proof (pricer_price_real S K T r sigma option_type num_paths g Hn HT) as Hp.
  rewrite pricer_run in Hp by lia. cbn [price_of] in Hp. now injection Hp.
Qed.

Lemma pricer_returns_formula_witness :
  (1 <= 3)%Z /\
  exists S_T : ndarray,
    samples_of (monte_carlo_option_price 100 100 1 0.05 0.2 "call" 3
                  (fun _ => 0)) = Some S_T /\
    length S_T = 3%nat.
Proof.
  split; [lia |].
  destruct (pricer_returns_formula 100 100 1 0.05 0.2 "call" 3 (fun _ => 0))
    as (price & S_T & Hrun & Hlen & _); [lia |].
  exists S_T. rewrite Hrun. split; [reflexivity | exact Hlen].
Defined.

(** C2, as stated, fails: with a negative maturity [np.sqrt(T)] is [nan],
    so is the price, and [nan] is not a non-negative number. *)
Lemma price_nonneg_fails_negative_maturity :
  ~ price_nonneg
      (monte_carlo_option_price 100 100 (-1) 0.05 0.2 "call" 1 (fun _ => 0)).
Proof.
  intros (price & Hp & Hle).
  rewrite pricer_price_nan in Hp by (lia || lra).
  injection Hp as <-. exact Hle.
Qed.

(** C2, amended.  In exact real arithmetic (no rounding, no overflow or
    underflow), for every real [S], [K], [r], [sigma], every maturity
    [T >= 0], every option kind, every [num_paths >= 1] and every generator
    state, the price estimate is a non-negative number: every payoff is a
    maximum with zero, so their mean is non-negative, and the discount
    factor [exp(-r T)] is positive. *)
Theorem price_nonneg_nonneg_maturity (S K T r sigma : R)
    (option_type : string) (num_paths : Z) (g : rng) :
  0 <= T -> (1 <= num_paths)%Z ->
  price_nonneg (monte_carlo_option_price S K T r sigma option_type num_paths g).
Proof.
  intros HT Hn. eexists. split; [now apply pricer_price_real |].
  cbn [fle]. apply Rmult_le_pos; [apply Rlt_le, exp_pos |].
  apply mean_R_nonneg.
  - intros Hnil. apply (f_equal (@length R)) in Hnil.
    rewrite !length_map, length_real_draws in Hnil. simpl in Hnil. lia.
  - intros x Hx. apply in_map_iff in Hx as (s & <- & _). apply payoff_R_nonneg.
Qed.

Lemma price_nonneg_nonneg_maturity_witness :
  0 <= 1 /\ (1 <= 2)%Z /\
  price_nonneg
    (monte_carlo_option_price 100 100 1 0.05 0.2 "put" 2 (fun _ => 0)).
Proof.
  split; [lra |]. split; [lia |].
  apply (price_nonneg_nonneg_maturity 100 100 1 0.05 0.2 "put" 2 (fun _ => 0));
    [lra | lia].
Defined.

(** C9.  Every option kind other than the string ["call"] (["Call"],
    a misspelling, any string) is priced exactly as ["put"] is: the outcome
    is the same for every input, and for a non-negative path count nothing
    is raised, the [num_paths] terminal prices are those of the formula at
    the draws, and the price is the discounted mean of the put payoffs
    [max(K - S_T_i, 0)] of these terminal prices. *)
Theorem unrecognized_kind_is_put (S K T r sigma : R) (option_type : string)
    (num_paths : Z) (g : rng) :
  option_type <> "call" ->
  monte_carlo_option_price S K T r sigma option_type num_paths g =
    monte_carlo_option_price S K T r sigma "put" num_paths g /\
  ((0 <= num_paths)%Z ->
   exists (price : npfloat) (S_T : ndarray),
     monte_carlo_option_price S K T r sigma option_type num_paths g =
       Return (price, S_T) (drop_draws (Z.to_nat num_paths) g) /\
     length S_T = Z.to_nat num_paths /\
     (forall i, (i < Z.to_nat num_paths)%nat ->
        S_T !! i = Some (terminal_price S T r sigma (Fin (g i)))) /\
     price = fmul (Fin (exp (- r * T)))
               (np_mean (map (fun s => fmaximum (fsub (Fin K) s) (Fin 0)) S_T))).
Proof.
  intros Hkind.
  assert (Heqb : String.eqb option_type "call" = false)
    by now apply String.eqb_neq.
  split.
  - unfold monte_carlo_option_price. rewrite Heqb. reflexivity.
  - intros Hn. eexists _, _. split; [now apply pricer_run |].
    split; [now rewrite length_map, length_take_draws |].
    split.
    + intros i Hi. rewrite lookup_map, take_draws_lookup by exact Hi.
      reflexivity.
    + unfold payoff. rewrite Heqb. reflexivity.
Qed.

Lemma unrecognized_kind_is_put_witness :
  "Call" <> "call" /\
  exists (price : npfloat) (S_T : ndarray),
    monte_carlo_option_price 100 90 1 0.05 0.2 "Call" 2 INR =
      Return (price, S_T) (drop_draws 2 INR) /\
    length S_T = 2%nat /\
    S_T !! 1%nat = Some (terminal_price 100 1 0.05 0.2 (Fin (INR 1))) /\
    price = fmul (Fin (exp (- (0.05) * 1)))
              (np_mean (map (fun s => fmaximum (fsub (Fin 90) s) (Fin 0)) S_T)).
Proof.
  assert (H : "Call" <> "call") by discriminate.
  split; [exact H |].
  destruct (unrecognized_kind_is_put 100 90 1 0.05 0.2 "Call" 2 INR H)
    as [_ Hput].
  destruct Hput as (price & S_T & Hrun & Hlen & Hentries & Hprice); [lia |].
  exists price, S_T. split; [exact Hrun |]. split; [exact Hlen |].
  split; [apply (Hentries 1%nat); simpl; lia | exact Hprice].
Defined.

(** ** Parity and monotonicity *)


















(** ** The reset callback *)

Lemma float_literals :
  100.0 = 100 /\ 1.0 = 1 /\ 0.05 = 5 / 100 /\ 0.2 = 2 / 10.
Proof. repeat split; lra. Qed.

(** C8.  [reset_parameters] leaves [S = 100.0], [K = 100.0], [T = 1.0],
    [r = 0.05], [sigma = 0.2], kind ['call'] and [N = 10000] under the seven
    widget keys, and every other key of the session state as it was. *)
Theorem reset_parameters_defaults (session_state : gmap string value) :
  let st := reset_parameters session_state in
  st !! "S_slider" = Some (VFloat 100) /\
  st !! "K_slider" = Some (VFloat 100) /\
  st !! "T_slider" = Some (VFloat 1) /\
  st !! "r_slider" = Some (VFloat (5 / 100)) /\
  st !! "sigma_slider" = Some (VFloat (2 / 10)) /\
  st !! "option_type_radio" = Some (VStr "call") /\
  st !! "num_paths_slider" = Some (VInt 10000) /\
  (forall k : string, k ∉ reset_keys -> st !! k = session_state !! k).
Proof.
  destruct float_literals as (H100 & H1 & H5 & H2).
  cbv zeta. unfold reset_parameters.
  repeat split.
  1-7: simplify_map_eq; do 2 f_equal; assumption || reflexivity.
  intros k Hk.
  rewrite !lookup_insert_ne; [reflexivity | ..];
    intros <-; apply Hk; unfold reset_keys; set_solver.
Qed.

Lemma reset_parameters_defaults_witness :
  ("show_paths" ∉ reset_keys) /\
  (reset_parameters {["show_paths" := VInt 1]}) !! "show_paths" =
    Some (VInt 1).
Proof.
  assert (H : "show_paths" ∉ reset_keys).
  { unfold reset_keys. intros Hin.
    repeat (apply elem_of_cons in Hin as [Heq | Hin]; [discriminate Heq |]).
    now apply elem_of_nil in Hin. }
  split; [exact H |].
  destruct (reset_parameters_defaults {["show_paths" := VInt 1]})
    as (_ & _ & _ & _ & _ & _ & _ & Hother).
  rewrite (Hother "show_paths" H). apply lookup_singleton_eq.
Defined.

(** ** The sample-path loop *)

Lemma path_value_real (S dt r sigma : R) (n : nat) (g : rng) (i j : nat) :
  0 <= dt ->
  path_value S dt r sigma n g i j = Fin (path_value_R S dt r sigma n g i j).
Proof.
  intros Hdt. induction i as [|i IH]; simpl; [reflexivity |].
  now rewrite IH, gbm_factor_real.
Qed.

Lemma path_value_R_pos (S dt r sigma : R) (n : nat) (g : rng) (i j : nat) :
  0 < S -> 0 < path_value_R S dt r sigma n g i j.
Proof.
  intros HS. induction i as [|i IH]; simpl; [exact HS |].
  apply Rmult_lt_0_compat; [exact IH | apply gbm_factor_R_pos].
Qed.

Lemma path_value_nan (S dt r sigma : R) (n : nat) (g : rng) (i j : nat) :
  dt < 0 -> path_value S dt r sigma n g (Datatypes.S i) j = NaN.
Proof.
  intros Hdt. simpl. rewrite gbm_factor_nan by exact Hdt.
  now destruct (path_value S dt r sigma n g i j).
Qed.

Lemma zip_with_map_seq {A B C} (f : A -> B -> C) (u : nat -> A) (v : nat -> B)
    (l : list nat) :
  zip_with f (map u l) (map v l) = map (fun j => f (u j) (v j)) l.
Proof. induction l as [|j l IH]; simpl; [reflexivity | now rewrite IH]. Qed.

Lemma map_const_seq {A} (a : A) (n : nat) :
  map (fun _ => a) (seq 0 n) = replicate n a.
Proof.
  generalize 0%nat. induction n as [|n IH]; intros s; simpl;
    [reflexivity | now rewrite IH].
Qed.

Lemma lookup_map_seq {A} (f : nat -> A) (n j : nat) :
  (j < n)%nat -> map f (seq 0 n) !! j = Some (f j).
Proof. intros Hj. now rewrite lookup_map, lookup_seq_lt. Qed.

(** One iteration of the loop body. *)
Lemma path_step_run (r sigma dt : R) (n i : nat) (paths : grid)
    (prev : ndarray) (gc : rng) :
  paths !! (i - 1)%nat = Some prev ->
  (i < length paths)%nat ->
  path_step r sigma dt n i paths gc =
    Return (<[i := zip_with fmul prev
                     (map (gbm_factor dt r sigma) (take_draws n gc))]> paths)
           (drop_draws n gc).
Proof.
  intros Hprev Hi. unfold path_step, bind.
  rewrite standard_normal_run by lia. rewrite Nat2Z.id.
  unfold get_row. rewrite Hprev. unfold ret, set_row.
  destruct (decide (i < length paths)%nat) as [_|Hge]; [| lia].
  unfold ret, arr_mul, np_exp, bc_add, bc_mul. rewrite !map_map. reflexivity.
Qed.

Section PathLoop.

Variables (S dt r sigma : R) (n : nat) (g : rng).

Local Abbreviation row_of := (path_row S dt r sigma n g).

(** The loop invariant: after [done] iterations the generator has
    delivered [done * n] draws and rows [0 .. done] are final. *)
Lemma for_in_run (len done : nat) (paths : grid) (gc : rng) :
  (Datatypes.S done + len <= length paths)%nat ->
  (forall k, gc k = g (done * n + k)%nat) ->
  (forall i, (i <= done)%nat -> paths !! i = Some (row_of i)) ->
  exists (paths' : grid) (gc' : rng),
    for_in (seq (Datatypes.S done) len) (path_step r sigma dt n) paths gc =
      Return paths' gc' /\
    length paths' = length paths /\
    (forall k, gc' k = g ((done + len) * n + k)%nat) /\
    (forall i, (i <= done + len)%nat -> paths' !! i = Some (row_of i)).
Proof.
  revert done paths gc.
  induction len as [|len IH]; intros done paths gc Hlen Hgc Hrows.
  - exists paths, gc. rewrite Nat.add_0_r. simpl. unfold ret. auto.
  - cbn [seq for_in]. unfold bind.
    rewrite (path_step_run r sigma dt n (Datatypes.S done) paths (row_of done) gc).
    2: { replace (Datatypes.S done - 1)%nat with done by lia. now apply Hrows. }
    2: { lia. }
    assert (Hrow :
      zip_with fmul (row_of done)
        (map (gbm_factor dt r sigma) (take_draws n gc)) =
      row_of (Datatypes.S done)).
    { unfold row_of, take_draws. rewrite map_map, zip_with_map_seq.
      apply map_ext. intros j. simpl. now rewrite Hgc. }
    rewrite Hrow.
    destruct (IH (Datatypes.S done)
                (<[Datatypes.S done := row_of (Datatypes.S done)]> paths)
                (drop_draws n gc))
      as (paths' & gc' & Hrun & Hlen' & Hgc' & Hrows').
    + rewrite length_insert. lia.
    + intros k. unfold drop_draws. rewrite Hgc. f_equal. lia.
    + intros i Hi. destruct (decide (i = Datatypes.S done)) as [-> | Hne].
      * apply list_lookup_insert_eq. lia.
      * rewrite list_lookup_insert_ne by congruence. apply Hrows. lia.
    + exists paths', gc'. rewrite length_insert in Hlen'.
      replace (done + Datatypes.S len)%nat with (Datatypes.S done + len)%nat
        by lia.
      auto.
Qed.

End PathLoop.

(** A run of the whole loop: the grid holds the recurrence's values. *)
Lemma simulate_paths_run (S T r sigma : R) (num_steps num_sample_paths : nat)
    (g : rng) :
  (1 <= num_steps)%nat ->
  exists (paths : grid) (g' : rng),
    simulate_paths S T r sigma num_steps num_sample_paths g = Return paths g' /\
    length paths = (num_steps + 1)%nat /\
    (forall i, (i <= num_steps)%nat ->
       paths !! i =
       Some (path_row S (T / INR num_steps) r sigma num_sample_paths g i)).
Proof.
  intros Hsteps. unfold simulate_paths, bind.
  destruct num_steps as [|s]; [lia |].
  cbn [float_div_int]. unfold ret at 1. unfold set_row, np_zeros.
  rewrite length_replicate.
  destruct (decide (0 < Datatypes.S s + 1)%nat) as [_|Hge]; [| lia].
  unfold ret at 1.
  set (dt := T / INR (Datatypes.S s)).
  set (paths0 := <[0%nat := replicate num_sample_paths (Fin S)]> _).
  destruct (for_in_run S dt r sigma num_sample_paths g (Datatypes.S s) 0
              paths0 g)
    as (paths & g' & Hrun & Hlen & _ & Hrows).
  - unfold paths0. rewrite length_insert, length_replicate. lia.
  - intros k. reflexivity.
  - intros i Hi. assert (i = 0%nat) as -> by lia.
    unfold paths0. rewrite Nat.add_1_r. cbn [replicate].
    unfold path_row. cbn [path_value]. now rewrite map_const_seq.
  - exists paths, g'. split; [exact Hrun |]. split.
    + rewrite Hlen. unfold paths0. now rewrite length_insert, length_replicate.
    + exact Hrows.
Qed.

Lemma length_path_row (S dt r sigma : R) (n : nat) (g : rng) (i : nat) :
  length (path_row S dt r sigma n g i) = n.
Proof. unfold path_row. now rewrite length_map, length_seq. Qed.

Lemma path_row_lookup (S dt r sigma : R) (n : nat) (g : rng) (i j : nat) :
  (j < n)%nat ->
  path_row S dt r sigma n g i !! j = Some (path_value S dt r sigma n g i j).
Proof. intros Hj. unfold path_row. now apply lookup_map_seq. Qed.

Lemma path_row_lookup_inv (S dt r sigma : R) (n : nat) (g : rng) (i j : nat)
    (y : npfloat) :
  path_row S dt r sigma n g i !! j = Some y ->
  (j < n)%nat /\ y = path_value S dt r sigma n g i j.
Proof.
  intros Hy. assert (Hj : (j < n)%nat).
  { apply lookup_lt_Some in Hy. now rewrite length_path_row in Hy. }
  split; [exact Hj |]. rewrite path_row_lookup in Hy by exact Hj. congruence.
Qed.

Lemma step_size_nonneg (T : R) (num_steps : nat) :
  0 <= T -> (1 <= num_steps)%nat -> 0 <= T / INR num_steps.
Proof.
  intros HT Hs. apply Rmult_le_pos; [exact HT |].
  apply Rlt_le, Rinv_0_lt_compat, lt_0_INR. lia.
Qed.

(** C4.  For [num_steps >= 1] the path loop returns a grid with
    [num_steps + 1] rows, each of [num_sample_paths] entries, whose row 0
    holds the spot price [S] in every column.  (The source runs it with 100
    steps and 5 columns.) *)
Theorem grid_shape_and_first_row (S T r sigma : R)
    (num_steps num_sample_paths : nat) (g : rng) :
  (1 <= num_steps)%nat -> (1 <= num_sample_paths)%nat ->
  exists (paths : grid) (g' : rng),
    simulate_paths S T r sigma num_steps num_sample_paths g = Return paths g' /\
    length paths = (num_steps + 1)%nat /\
    (forall i row, paths !! i = Some row -> length row = num_sample_paths) /\
    paths !! 0%nat = Some (replicate num_sample_paths (Fin S)).
Proof.
  intros Hsteps _.
  destruct (simulate_paths_run S T r sigma num_steps num_sample_paths g Hsteps)
    as (paths & g' & Hrun & Hlen & Hrows).
  exists paths, g'. split; [exact Hrun |]. split; [exact Hlen |]. split.
  - intros i row Hrow.
    assert (Hi : (i <= num_steps)%nat) by (apply lookup_lt_Some in Hrow; lia).
    rewrite (Hrows i Hi) in Hrow. injection Hrow as <-. apply length_path_row.
  - rewrite Hrows by lia. unfold path_row. cbn [path_value].
    now rewrite map_const_seq.
Qed.

Lemma grid_shape_and_first_row_witness :
  (1 <= 100)%nat /\ (1 <= 5)%nat /\
  exists (paths : grid) (g' : rng),
    sample_paths_tab 100 1 0.05 0.2 (fun _ => 0) = Return paths g' /\
    length paths = 101%nat /\
    paths !! 0%nat = Some [Fin 100; Fin 100; Fin 100; Fin 100; Fin 100].
Proof.
  split; [lia |]. split; [lia |].
  destruct (grid_shape_and_first_row 100 1 0.05 0.2 100 5 (fun _ => 0))
    as (paths & g' & Hrun & Hlen & _ & Hrow0); [lia | lia |].
  exists paths, g'. split; [exact Hrun |]. split; [exact Hlen | exact Hrow0].
Defined.

(** C5.  For [num_steps >= 1], every row [1 <= i <= num_steps] and every
    column [j], the grid satisfies
    [paths[i][j] = paths[i-1][j] * exp((r - 0.5 sigma^2) dt + sigma sqrt(dt) Z)]
    with [dt = T / num_steps] and [Z] the draw made for step [i] and column
    [j], which is draw number [(i - 1) * num_sample_paths + j] of the
    generator.  The product is one of floats; for [0 <= T] both entries are
    real numbers and it is the product on reals. *)
Theorem one_step_recurrence (S T r sigma : R)
    (num_steps num_sample_paths : nat) (g : rng) :
  (1 <= num_steps)%nat ->
  exists (paths : grid) (g' : rng),
    simulate_paths S T r sigma num_steps num_sample_paths g = Return paths g' /\
    forall i j, (1 <= i <= num_steps)%nat -> (j < num_sample_paths)%nat ->
      let dt := T / INR num_steps in
      let z := g ((i - 1) * num_sample_paths + j)%nat in
      exists prev : npfloat,
        entry paths (i - 1) j = Some prev /\
        entry paths i j = Some (fmul prev (gbm_factor dt r sigma (Fin z))) /\
        (0 <= T ->
         exists x : R,
           prev = Fin x /\
           entry paths i j =
             Some (Fin (x * exp ((r - 0.5 * (sigma * sigma)) * dt
                                 + sigma * sqrt dt * z)))).
Proof.
  intros Hsteps.
  destruct (simulate_paths_run S T r sigma num_steps num_sample_paths g Hsteps)
    as (paths & g' & Hrun & Hlen & Hrows).
  exists paths, g'. split; [exact Hrun |].
  intros i j Hi Hj.
  destruct i as [|i]; [lia |].
  replace (Datatypes.S i - 1)%nat with i by lia.
  intros dt z.
  exists (path_value S dt r sigma num_sample_paths g i j).
  assert (Hprev : entry paths i j =
                  Some (path_value S dt r sigma num_sample_paths g i j)).
  { unfold entry. rewrite Hrows by lia. now apply path_row_lookup. }
  assert (Hcur : entry paths (Datatypes.S i) j =
                 Some (path_value S dt r sigma num_sample_paths g
                         (Datatypes.S i) j)).
  { unfold entry. rewrite Hrows by lia. now apply path_row_lookup. }
  split; [exact Hprev |]. split; [exact Hcur |].
  intros HT. assert (Hdt : 0 <= dt) by (apply step_size_nonneg; [exact HT | lia]).
  exists (path_value_R S dt r sigma num_sample_paths g i j).
  split; [now apply path_value_real |].
  rewrite Hcur, path_value_real by exact Hdt. reflexivity.
Qed.

Lemma one_step_recurrence_witness :
  (1 <= 2)%nat /\
  exists (paths : grid) (prev : npfloat),
    grid_of (simulate_paths 100 1 0.05 0.2 2 3 (fun _ => 0)) = Some paths /\
    entry paths 1 2 = Some prev /\
    entry paths 2 2 = Some (fmul prev (gbm_factor (1 / INR 2) 0.05 0.2 (Fin 0))).
Proof.
  split; [lia |].
  destruct (one_step_recurrence 100 1 0.05 0.2 2 3 (fun _ => 0))
    as (paths & g' & Hrun & Hrec); [lia |].
  destruct (Hrec 2%nat 2%nat) as (prev & Hprev & Hcur & _); [lia | lia |].
  exists paths, prev. rewrite Hrun. repeat split; assumption.
Defined.

(** C6, as stated, fails: with [S > 0] and a negative maturity the step
    size is negative, [np.sqrt(dt)] is [nan], and row 1 of the grid holds
    [nan], which is not a strictly positive number. *)
Lemma grid_positive_fails_negative_maturity :
  0 < 100 /\
  ~ returns_positive_grid (simulate_paths 100 (-1) 0.05 0.2 1 1 (fun _ => 0)).
Proof.
  split; [lra |].
  intros (paths & Hgrid & Hpos).
  destruct (simulate_paths_run 100 (-1) 0.05 0.2 1 1 (fun _ => 0))
    as (paths' & g' & Hrun & _ & Hrows); [lia |].
  rewrite Hrun in Hgrid. injection Hgrid as <-.
  specialize (Hrows 1%nat (Nat.le_refl 1)).
  assert (Hentry : path_row 100 (-1 / INR 1) 0.05 0.2 1 (fun _ => 0) 1 !! 0%nat
                   = Some NaN).
  { rewrite path_row_lookup by lia. rewrite path_value_nan; [reflexivity |].
    simpl. lra. }
  exact (Hpos 1%nat 0%nat _ Hrows NaN Hentry).
Qed.

(** C6, amended.  For every [S > 0], every maturity [T >= 0], every real
    [r] and [sigma], [num_steps >= 1] and every generator state, the path
    loop returns a grid all of whose entries are strictly positive numbers;
    the grid has an entry at every row [i <= num_steps] and column
    [j < num_sample_paths]. *)
Theorem grid_positive_nonneg_maturity (S T r sigma : R)
    (num_steps num_sample_paths : nat) (g : rng) :
  0 < S -> 0 <= T -> (1 <= num_steps)%nat ->
  returns_positive_grid
    (simulate_paths S T r sigma num_steps num_sample_paths g) /\
  (forall i j, (i <= num_steps)%nat -> (j < num_sample_paths)%nat ->
     exists (paths : grid) (y : R),
       grid_of (simulate_paths S T r sigma num_steps num_sample_paths g) =
         Some paths /\
       entry paths i j = Some (Fin y) /\ 0 < y).
Proof.
  intros HS HT Hsteps.
  destruct (simulate_paths_run S T r sigma num_steps num_sample_paths g Hsteps)
    as (paths & g' & Hrun & Hlen & Hrows).
  assert (Hdt : 0 <= T / INR num_steps) by now apply step_size_nonneg.
  rewrite Hrun. cbn [grid_of]. split.
  - exists paths. split; [reflexivity |].
    intros i j x Hx y Hy.
    assert (Hi : (i <= num_steps)%nat) by (apply lookup_lt_Some in Hx; lia).
    rewrite (Hrows i Hi) in Hx. injection Hx as <-.
    apply path_row_lookup_inv in Hy as [_ ->].
    rewrite path_value_real by exact Hdt. cbn [flt].
    now apply path_value_R_pos.
  - intros i j Hi Hj. eexists paths, _. split; [reflexivity |].
    unfold entry. rewrite (Hrows i Hi), path_row_lookup by exact Hj.
    rewrite path_value_real by exact Hdt.
    split; [reflexivity | now apply path_value_R_pos].
Qed.

Lemma grid_positive_nonneg_maturity_witness :
  0 < 100 /\ 0 <= 1 /\ (1 <= 100)%nat /\
  returns_positive_grid (sample_paths_tab 100 1 0.05 0.2 (fun _ => 0)).
Proof.
  split; [lra |]. split; [lra |]. split; [lia |].
  apply (grid_positive_nonneg_maturity 100 1 0.05 0.2 100 5 (fun _ => 0));
    [lra | lra | lia].
Defined.

(** * Further properties of the pricer *)




Lemma real_draws_nonempty (num_paths : Z) (g : rng) :
  (1 <= num_paths)%Z -> real_draws (Z.to_nat num_paths) g <> [].
Proof.
  intros Hn Hnil. apply (f_equal (@length R)) in Hnil.
  rewrite length_real_draws in Hnil. simpl in Hnil. lia.
Qed.














Lemma terminal_price_R_pos (S T r sigma z : R) :
  0 < S -> 0 < terminal_price_R S T r sigma z.
Proof.
  intros HS. unfold terminal_price_R.
  apply Rmult_lt_0_compat; [exact HS | apply gbm_factor_R_pos].
Qed.









(** X7.  Path counts below one: with [num_paths = 0] the pricer raises
    nothing, returns an empty sample and the price [nan] (the mean of no
    payoffs) and leaves the generator as it was; a negative [num_paths]
    raises [ValueError]. *)
Theorem pricer_degenerate_sizes (S K T r sigma : R) (option_type : string)
    (g : rng) :
  monte_carlo_option_price S K T r sigma option_type 0 g = Return (NaN, []) g /\
  (forall num_paths : Z, (num_paths < 0)%Z ->
   monte_carlo_option_price S K T r sigma option_type num_paths g =
     Raise ValueError).
Proof.
  split.
  - rewrite pricer_run by lia. reflexivity.
  - intros num_paths. apply pricer_negative_size.
Qed.

Lemma pricer_degenerate_sizes_witness :
  (-1 < 0)%Z /\
  monte_carlo_option_price 100 100 1 0.05 0.2 "call" (-1) (fun _ => 0) =
    Raise ValueError.
Proof.
  split; [lia |].
  apply (pricer_degenerate_sizes 100 100 1 0.05 0.2 "call" (fun _ => 0)). lia.
Defined.





(** * Further properties of the sample-path loop *)

(** A run of the loop together with the generator it leaves. *)
Lemma simulate_paths_run_generator (S T r sigma : R)
    (num_steps num_sample_paths : nat) (g : rng) :
  (1 <= num_steps)%nat ->
  exists (paths : grid) (g' : rng),
    simulate_paths S T r sigma num_steps num_sample_paths g = Return paths g' /\
    length paths = (num_steps + 1)%nat /\
    (forall k, g' k = g (num_steps * num_sample_paths + k)%nat) /\
    (forall i, (i <= num_steps)%nat ->
       paths !! i =
       Some (path_row S (T / INR num_steps) r sigma num_sample_paths g i)).
Proof.
  intros Hsteps. unfold simulate_paths, bind.
  destruct num_steps as [|s]; [lia |].
  cbn [float_div_int]. unfold ret at 1. unfold set_row, np_zeros.
  rewrite length_replicate.
  destruct (decide (0 < Datatypes.S s + 1)%nat) as [_|Hge]; [| lia].
  unfold ret at 1.
  set (dt := T / INR (Datatypes.S s)).
  set (paths0 := <[0%nat := replicate num_sample_paths (Fin S)]> _).
  destruct (for_in_run S dt r sigma num_sample_paths g (Datatypes.S s) 0
              paths0 g)
    as (paths & g' & Hrun & Hlen & Hgen & Hrows).
  - unfold paths0. rewrite length_insert, length_replicate. lia.
  - intros k. reflexivity.
  - intros i Hi. assert (i = 0%nat) as -> by lia.
    unfold paths0. rewrite Nat.add_1_r. cbn [replicate].
    unfold path_row. cbn [path_value]. now rewrite map_const_seq.
  - exists paths, g'. split; [exact Hrun |]. split; [| split].
    + rewrite Hlen. unfold paths0. now rewrite length_insert, length_replicate.
    + exact Hgen.
    + exact Hrows.
Qed.

(** X10.  The path loop consumes exactly [num_steps * num_sample_paths]
    draws: the generator it leaves delivers the draws that follow them. *)
Theorem path_loop_consumes_draws (S T r sigma : R)
    (num_steps num_sample_paths : nat) (g : rng) :
  (1 <= num_steps)%nat ->
  exists (paths : grid) (g' : rng),
    simulate_paths S T r sigma num_steps num_sample_paths g = Return paths g' /\
    forall k, g' k = g (num_steps * num_sample_paths + k)%nat.
Proof.
  intros Hsteps.
  destruct (simulate_paths_run_generator S T r sigma num_steps
              num_sample_paths g Hsteps)
    as (paths & g' & Hrun & _ & Hgen & _).
  now exists paths, g'.
Qed.

Lemma path_loop_consumes_draws_witness :
  (1 <= 100)%nat /\
  exists (paths : grid) (g' : rng),
    sample_paths_tab 100 1 0.05 0.2 INR = Return paths g' /\
    g' 0%nat = INR 500.
Proof.
  split; [lia |].
  destruct (path_loop_consumes_draws 100 1 0.05 0.2 100 5 INR)
    as (paths & g' & Hrun & Hgen); [lia |].
  exists paths, g'. split; [exact Hrun |]. now rewrite Hgen.
Defined.






Lemma path_value_ext (S dt r sigma : R) (n : nat) (g1 g2 : rng) (i j : nat) :
  (forall k, (k < i)%nat -> g1 (k * n + j)%nat = g2 (k * n + j)%nat) ->
  path_value S dt r sigma n g1 i j = path_value S dt r sigma n g2 i j.
Proof.
  induction i as [|i IH]; intros Hg; [reflexivity |].
  cbn [path_value]. rewrite IH by (intros k Hk; apply Hg; lia).
  now rewrite (Hg i) by lia.
Qed.

(** X13.  Columns do not interfere: column [j] of the grid is determined by
    the draws numbered [k * num_sample_paths + j] alone.  Two generator
    states that agree on those draws give the same column, whatever the
    other draws are. *)
Theorem path_column_depends_on_own_draws (S T r sigma : R)
    (num_steps num_sample_paths : nat) (g1 g2 : rng) (j : nat) :
  (1 <= num_steps)%nat -> (j < num_sample_paths)%nat ->
  (forall k, (k < num_steps)%nat ->
     g1 (k * num_sample_paths + j)%nat = g2 (k * num_sample_paths + j)%nat) ->
  exists paths1 paths2 : grid,
    grid_of (simulate_paths S T r sigma num_steps num_sample_paths g1) =
      Some paths1 /\
    grid_of (simulate_paths S T r sigma num_steps num_sample_paths g2) =
      Some paths2 /\
    forall i, (i <= num_steps)%nat ->
      is_Some (entry paths1 i j) /\ entry paths1 i j = entry paths2 i j.
Proof.
  intros Hsteps Hj Hg.
  destruct (simulate_paths_run S T r sigma num_steps num_sample_paths g1 Hsteps)
    as (paths1 & g1' & Hrun1 & _ & Hrows1).
  destruct (simulate_paths_run S T r sigma num_steps num_sample_paths g2 Hsteps)
    as (paths2 & g2' & Hrun2 & _ & Hrows2).
  exists paths1, paths2. rewrite Hrun1, Hrun2.
  split; [reflexivity |]. split; [reflexivity |].
  intros i Hi. unfold entry.
  rewrite (Hrows1 i Hi), (Hrows2 i Hi), !path_row_lookup by exact Hj.
  split; [now eexists |]. f_equal.
  apply path_value_ext. intros k Hk. apply Hg. lia.
Qed.

Lemma path_column_depends_on_own_draws_witness :
  (1 <= 2)%nat /\ (0 < 2)%nat /\
  exists paths1 paths2 : grid,
    grid_of (simulate_paths 100 1 0.05 0.2 2 2 (fun _ => 0)) = Some paths1 /\
    grid_of (simulate_paths 100 1 0.05 0.2 2 2
               (fun k => if Nat.even k then 0 else 1)) = Some paths2 /\
    entry paths1 2 0 = entry paths2 2 0.
Proof.
  split; [lia |]. split; [lia |].
  destruct (path_column_depends_on_own_draws 100 1 0.05 0.2 2 2
              (fun _ => 0) (fun k => if Nat.even k then 0 else 1) 0)
    as (paths1 & paths2 & H1 & H2 & Hcol); [lia | lia | |].
  - intros k Hk. destruct k as [|[|k]]; [reflexivity | reflexivity | lia].
  - exists paths1, paths2. split; [exact H1 |]. split; [exact H2 |].
    apply (Hcol 2%nat). lia.
Defined.

(** X14.  With a negative maturity the grid keeps row 0 at [S] and holds
    [nan] in every later row. *)
Theorem path_grid_negative_maturity (S T r sigma : R)
    (num_steps num_sample_paths : nat) (g : rng) :
  T < 0 -> (1 <= num_steps)%nat ->
  exists paths : grid,
    grid_of (simulate_paths S T r sigma num_steps num_sample_paths g) =
      Some paths /\
    forall i j, (i <= num_steps)%nat -> (j < num_sample_paths)%nat ->
      entry paths i j = Some (if decide (i = 0%nat) then Fin S else NaN).
Proof.
  intros HT Hsteps.
  destruct (simulate_paths_run S T r sigma num_steps num_sample_paths g Hsteps)
    as (paths & g' & Hrun & _ & Hrows).
  exists paths. rewrite Hrun. split; [reflexivity |].
  intros i j Hi Hj. unfold entry.
  rewrite (Hrows i Hi), path_row_lookup by exact Hj. f_equal.
  destruct i as [|i]; [reflexivity |].
  destruct (decide (Datatypes.S i = 0%nat)) as [Heq | _]; [lia |].
  apply path_value_nan.
  assert (0 < / INR num_steps)
    by (apply Rinv_0_lt_compat, lt_0_INR; lia).
  unfold Rdiv. nra.
Qed.

Lemma path_grid_negative_maturity_witness :
  -1 < 0 /\ (1 <= 2)%nat /\
  exists paths : grid,
    grid_of (simulate_paths 100 (-1) 0.05 0.2 2 3 (fun _ => 0)) = Some paths /\
    entry paths 0 1 = Some (Fin 100) /\
    entry paths 2 1 = Some NaN.
Proof.
  split; [lra |]. split; [lia |].
  destruct (path_grid_negative_maturity 100 (-1) 0.05 0.2 2 3 (fun _ => 0))
    as (paths & Hgrid & Hrows); [lra | lia |].
  exists paths. split; [exact Hgrid |].
  split; [apply (Hrows 0%nat 1%nat); lia | apply (Hrows 2%nat 1%nat); lia].
Defined.

(** * The time axis and the plotted columns *)

(** X15.  [np.linspace(start, stop, num)] with [num >= 2] has [num] points,
    evenly spaced by [(stop - start) / (num - 1)], the first exactly [start]
    and the last exactly [stop]. *)
Theorem linspace_points (start stop : R) (num : nat) :
  (2 <= num)%nat ->
  let step := (stop - start) / INR (num - 1) in
  length (np_linspace start stop num) = num /\
  (forall i, (i < num)%nat ->
     np_linspace start stop num !! i = Some (Fin (start + INR i * step))) /\
  np_linspace start stop num !! 0%nat = Some (Fin start) /\
  np_linspace start stop num !! (num - 1)%nat = Some (Fin stop).
Proof.
  intros Hnum step. unfold np_linspace.
  destruct (Nat.ltb_spec 0 (num - 1)) as [_ | Hdiv]; [| lia].
  destruct (Nat.ltb_spec 1 num) as [_ | Hone]; [| lia].
  fold step. rewrite !map_map.
  set (y := map (fun k => Fin (INR k * step + start)) (seq 0 num)).
  assert (Hlen : length y = num) by (unfold y; now rewrite length_map, length_seq).
  assert (Hy : forall i, (i < num)%nat ->
            y !! i = Some (Fin (start + INR i * step))).
  { intros i Hi. unfold y. rewrite lookup_map_seq by exact Hi.
    do 2 f_equal. ring. }
  assert (Hlast : start + INR (num - 1) * step = stop).
  { unfold step. field. apply not_0_INR. lia. }
  split; [now rewrite length_insert |].
  split; [| split].
  - intros i Hi. destruct (decide (i = (num - 1)%nat)) as [-> | Hne].
    + rewrite list_lookup_insert_eq by lia. now rewrite Hlast.
    + rewrite list_lookup_insert_ne by congruence. now apply Hy.
  - rewrite list_lookup_insert_ne by lia. rewrite Hy by lia.
    do 2 f_equal. cbn [INR]. ring.
  - apply list_lookup_insert_eq. lia.
Qed.

Lemma linspace_points_witness :
  (2 <= 3)%nat /\
  np_linspace 0 1 3 !! 2%nat = Some (Fin 1) /\
  np_linspace 0 1 3 !! 1%nat = Some (Fin (0 + INR 1 * ((1 - 0) / INR (3 - 1)))).
Proof.
  split; [lia |].
  destruct (linspace_points 0 1 3) as (_ & Hi & _ & Hlast); [lia |].
  split; [exact Hlast | apply (Hi 1%nat); lia].
Defined.

(** Column extraction reads and changes no generator state. *)
Lemma column_entries_run (paths : grid) (j : nat) (g : rng) :
  (forall i row, paths !! i = Some row -> (j < length row)%nat) ->
  exists col : ndarray,
    column_entries paths j g = Return col g /\
    length col = length paths /\
    (forall i, col !! i = entry paths i j).
Proof.
  induction paths as [|row paths IH]; intros Hwide.
  - exists []. repeat split.
  - destruct (IH (fun i => Hwide (Datatypes.S i))) as (col & Hcol & Hlen & Hent).
    destruct (lookup_lt_is_Some_2 row j (Hwide 0%nat row eq_refl)) as [x Hx].
    exists (x :: col). cbn [column_entries]. rewrite Hx. unfold bind.
    rewrite Hcol. split; [reflexivity |]. split; [simpl; now rewrite Hlen |].
    intros [|i]; [unfold entry; simpl; now rewrite Hx |].
    exact (Hent i).
Qed.

Lemma get_column_run (num_cols : nat) (paths : grid) (j : nat) (g : rng) :
  (j < num_cols)%nat ->
  (forall i row, paths !! i = Some row -> length row = num_cols) ->
  exists col : ndarray,
    get_column num_cols paths j g = Return col g /\
    length col = length paths /\
    (forall i, col !! i = entry paths i j).
Proof.
  intros Hj Hwide. unfold get_column.
  destruct (decide (j < num_cols)%nat) as [_ | Hge]; [| lia].
  apply column_entries_run. intros i row Hrow.
  now rewrite (Hwide i row Hrow).
Qed.

(** * The interactive tab *)

Lemma path_columns_run (num_cols : nat) (idx : list nat) (paths : grid)
    (g : rng) :
  (forall j, In j idx -> (j < num_cols)%nat) ->
  (forall i row, paths !! i = Some row -> length row = num_cols) ->
  exists cols : list ndarray,
    path_columns num_cols idx paths g = Return cols g /\
    length cols = length idx /\
    (forall k j, idx !! k = Some j ->
       exists col : ndarray,
         cols !! k = Some col /\
         length col = length paths /\
         (forall i, col !! i = entry paths i j)).
Proof.
  intros Hidx Hwide. induction idx as [|j0 idx IH].
  - exists []. repeat split. intros k j Hk. now destruct k.
  - destruct IH as (cols & Hcols & Hlen & Hspec).
    { intros j Hj. apply Hidx. now right. }
    destruct (get_column_run num_cols paths j0 g) as (col & Hcol & Hclen & Hcent).
    { apply Hidx. now left. }
    { exact Hwide. }
    exists (col :: cols). cbn [path_columns]. unfold bind.
    rewrite Hcol, Hcols. split; [reflexivity |].
    split; [simpl; now rewrite Hlen |].
    intros [|k] j Hk.
    + injection Hk as <-. now exists col.
    + exact (Hspec k j Hk).
Qed.

(** The histogram call accepts a sample of numbers and rejects a sample of
    [nan]s. *)
Lemma ax_hist_reals (l : list R) (g : rng) :
  ax_hist (map Fin l) g = Return tt g.
Proof. destruct l as [|x l]; reflexivity. Qed.


(** A run of the tab with the check box ticked and a non-negative
    maturity. *)
Lemma interactive_tab_run_shown (S K T r sigma : R) (option_type : string)
    (num_paths : Z) (g : rng) :
  0 <= T -> (0 <= num_paths)%Z ->
  let n := Z.to_nat num_paths in
  let g1 := drop_draws n g in
  exists (price : npfloat) (S_T : ndarray) (cols : list ndarray) (g' : rng),
    monte_carlo_option_price S K T r sigma option_type num_paths g =
      Return (price, S_T) g1 /\
    interactive_tab S K T r sigma option_type num_paths true g =
      Return (price, S_T,
              Some {| t_grid := np_linspace 0 T (100 + 1); series := cols |})
             g' /\
    (forall k, g' k = g (n + 500 + k)%nat) /\
    length cols = 5%nat /\
    (forall j, (j < 5)%nat ->
       exists col : ndarray,
         cols !! j = Some col /\
         length col = 101%nat /\
         (forall i, (i <= 100)%nat ->
            col !! i =
            Some (path_value S (T / INR 100) r sigma 5 g1 i j))).
Proof.
  intros HT Hn n g1.
  pose proof (pricer_run S K T r sigma option_type num_paths g Hn) as Hprice.
  cbv zeta in Hprice. fold n in Hprice. fold g1 in Hprice.
  destruct (simulate_paths_run_generator S T r sigma 100 5 g1)
    as (paths & g2 & Hrun & Hlen & Hgen & Hrows); [lia |].
  assert (Hwide : forall i row, paths !! i = Some row -> length row = 5%nat).
  { intros i row Hrow.
    assert (Hi : (i <= 100)%nat) by (apply lookup_lt_Some in Hrow; lia).
    rewrite (Hrows i Hi) in Hrow. injection Hrow as <-. apply length_path_row. }
  destruct (path_columns_run 5 (seq 0 5) paths g2)
    as (cols & Hcols & Hclen & Hspec).
  { intros j Hj. apply in_seq in Hj. lia. }
  { exact Hwide. }
  eexists _, _, cols, g2. split; [exact Hprice |].
  split; [| split; [| split]].
  - unfold interactive_tab, bind. rewrite Hprice. cbn [fst snd].
    rewrite samples_real by exact HT. rewrite ax_hist_reals.
    unfold sample_paths_tab. rewrite Hrun, Hcols. reflexivity.
  - intros k. rewrite Hgen. unfold g1, drop_draws. f_equal. lia.
  - rewrite Hclen. apply length_seq.
  - intros j Hj.
    destruct (Hspec j j) as (col & Hcol & Hcollen & Hent).
    { now apply lookup_seq_lt. }
    exists col. split; [exact Hcol |]. split; [lia |].
    intros i Hi. rewrite Hent. unfold entry.
    rewrite (Hrows i Hi). now apply path_row_lookup.
Qed.

(** * The sidebar *)

Ltac invert_admits H :=
  let w := fresh "w" in
  let Hin := fresh "Hin" in
  let Hkey := fresh "Hkey" in
  let Hadm := fresh "Hadm" in
  destruct H as (w & Hin & Hkey & Hadm);
  unfold sidebar_widgets in Hin;
  repeat (destruct Hin as [<- | Hin];
          [try discriminate Hkey; cbn [widget_admits] in Hadm |]);
  [| now destruct Hin].

(** What the declared bounds say about admitted parameters. *)
Lemma sidebar_parameters_bounds (S K T r sigma : R) (option_type : string)
    (num_paths : Z) :
  sidebar_parameters S K T r sigma option_type num_paths ->
  50 <= S <= 150 /\ 50 <= K <= 150 /\ 0.1 <= T <= 5 /\ 0 <= r <= 0.2 /\
  0.1 <= sigma <= 1 /\
  (option_type = "call" \/ option_type = "put") /\
  (1000 <= num_paths <= 50000)%Z.
Proof.
  intros (HS & HK & HT & Hr & Hsigma & Hkind & Hn).
  invert_admits HS. invert_admits HK. invert_admits HT. invert_admits Hr.
  invert_admits Hsigma. invert_admits Hkind. invert_admits Hn.
  repeat split; try lra; try lia.
  match goal with
  | H : In option_type _ |- _ => destruct H as [<- | [<- | []]]; auto
  end.
Qed.

(** X19.  On parameters the sidebar admits, the tab with the sample paths
    shown raises nothing and shows numbers only: the price is a
    non-negative number, and every terminal price and every point of every
    sample path is a strictly positive number. *)
Theorem tab_on_sidebar_parameters (S K T r sigma : R) (option_type : string)
    (num_paths : Z) (g : rng) :
  sidebar_parameters S K T r sigma option_type num_paths ->
  exists (p : R) (S_T : ndarray) (plot : path_plot) (g' : rng),
    interactive_tab S K T r sigma option_type num_paths true g =
      Return (Fin p, S_T, Some plot) g' /\
    0 <= p /\
    length S_T = Z.to_nat num_paths /\
    (forall y, In y S_T -> flt (Fin 0) y) /\
    (forall col y, In col (series plot) -> In y col -> flt (Fin 0) y).
Proof.
  intros Hside.
  destruct (sidebar_parameters_bounds _ _ _ _ _ _ _ Hside)
    as (HS & _ & HT & _ & _ & _ & Hn).
  assert (HT0 : 0 <= T) by lra. assert (HS0 : 0 < S) by lra.
  destruct (interactive_tab_run_shown S K T r sigma option_type num_paths g)
    as (price & S_T & cols & g' & Hprice & Htab & _ & Hlen & Hcols);
    [exact HT0 | lia |].
  assert (Hreal : price =
            Fin (exp (- r * T) *
                 mean_R (map (payoff_R option_type K)
                           (map (terminal_price_R S T r sigma)
                              (real_draws (Z.to_nat num_paths) g))))).
  { assert (Hn1 : (1 <= num_paths)%Z) by lia.
    pose proof (pricer_price_real S K T r sigma option_type num_paths g
                  Hn1 HT0) as H.
    rewrite Hprice in H. cbn [price_of] in H. now injection H. }
  assert (HST : S_T = map (terminal_price S T r sigma)
                        (take_draws (Z.to_nat num_paths) g)).
  { assert (Hn0 : (0 <= num_paths)%Z) by lia.
    pose proof (pricer_run S K T r sigma option_type num_paths g Hn0) as H.
    cbv zeta in H. rewrite Hprice in H. now injection H. }
  rewrite Hreal in Htab.
  eexists _, S_T, _, g'. split; [exact Htab |].
  split; [| split; [| split]].
  - apply Rmult_le_pos; [apply Rlt_le, exp_pos |].
    apply mean_R_nonneg.
    + rewrite map_map.
      pose proof (real_draws_nonempty num_paths g) as Hne.
      destruct (real_draws (Z.to_nat num_paths) g);
        [exfalso; apply Hne; [lia | reflexivity] | discriminate].
    + intros x Hx. apply in_map_iff in Hx as (s & <- & _).
      apply payoff_R_nonneg.
  - rewrite HST. now rewrite length_map, length_take_draws.
  - rewrite HST, samples_real by exact HT0. intros y Hy.
    apply in_map_iff in Hy as (x & <- & Hx).
    apply in_map_iff in Hx as (z & <- & _).
    cbn [flt]. now apply terminal_price_R_pos.
  - cbn [series]. intros col y Hcol Hy.
    apply list_elem_of_In, list_elem_of_lookup in Hcol as [j Hj].
    apply list_elem_of_In, list_elem_of_lookup in Hy as [i Hi].
    assert (Hj5 : (j < 5)%nat) by (apply lookup_lt_Some in Hj; lia).
    destruct (Hcols j Hj5) as (col' & Hcol' & Hcollen & Hent).
    assert (col' = col) as -> by congruence.
    assert (Hi100 : (i <= 100)%nat) by (apply lookup_lt_Some in Hi; lia).
    assert (Hdt : 0 <= T / INR 100)
      by (apply step_size_nonneg; [exact HT0 | lia]).
    rewrite (Hent i Hi100), (path_value_real _ _ _ _ _ _ i j Hdt) in Hi.
    assert (Hy : y = Fin (path_value_R S (T / INR 100) r sigma 5
                            (drop_draws (Z.to_nat num_paths) g) i j))
      by congruence.
    rewrite Hy. cbn [flt]. now apply path_value_R_pos.
Qed.

Lemma default_parameters_admitted :
  sidebar_parameters 100 100 1 0.05 0.2 "call" 10000.
Proof.
  repeat split.
  - eexists (FloatSlider "S_slider" _ _ _).
    split; [unfold sidebar_widgets; auto 10 using in_eq, in_cons |].
    split; [reflexivity | cbn; lra].
  - eexists (FloatSlider "K_slider" _ _ _).
    split; [unfold sidebar_widgets; auto 10 using in_eq, in_cons |].
    split; [reflexivity | cbn; lra].
  - eexists (FloatSlider "T_slider" _ _ _).
    split; [unfold sidebar_widgets; auto 10 using in_eq, in_cons |].
    split; [reflexivity | cbn; lra].
  - eexists (FloatSlider "r_slider" _ _ _).
    split; [unfold sidebar_widgets; auto 10 using in_eq, in_cons |].
    split; [reflexivity | cbn; lra].
  - eexists (FloatSlider "sigma_slider" _ _ _).
    split; [unfold sidebar_widgets; auto 10 using in_eq, in_cons |].
    split; [reflexivity | cbn; lra].
  - eexists (Radio "option_type_radio" _).
    split; [unfold sidebar_widgets; auto 10 using in_eq, in_cons |].
    split; [reflexivity | cbn; auto].
  - eexists (IntSlider "num_paths_slider" _ _ _ _).
    split; [unfold sidebar_widgets; auto 10 using in_eq, in_cons |].
    split; [reflexivity | cbn; lia].
Defined.

Lemma tab_on_sidebar_parameters_witness :
  sidebar_parameters 100 100 1 0.05 0.2 "call" 10000 /\
  exists (p : R) (S_T : ndarray),
    priced_of (interactive_tab 100 100 1 0.05 0.2 "call" 10000 true
                 (fun _ => 0)) = Some (Fin p, S_T) /\
    0 <= p.
Proof.
  split; [exact default_parameters_admitted |].
  destruct (tab_on_sidebar_parameters 100 100 1 0.05 0.2 "call" 10000
              (fun _ => 0) default_parameters_admitted)
    as (p & S_T & plot & g' & Htab & Hp & _).
  exists p, S_T. rewrite Htab. split; [reflexivity | exact Hp].
Defined.



(** X18.  On parameters the sidebar admits and with the check box ticked,
    the tab returns a plot of 5 series over a time axis of 101 points;
    series [j] at index [i] is the path value after [i] steps of size
    [T / 100], computed from the draws that follow the pricer's
    [num_paths] draws, and the axis at index [i] is the time [i * (T / 100)]
    of that step.  Every series has the length of the axis, and
    [num_paths + 500] draws are consumed in all. *)
Theorem tab_plot_shown (S K T r sigma : R) (option_type : string)
    (num_paths : Z) (g : rng) :
  sidebar_parameters S K T r sigma option_type num_paths ->
  let n := Z.to_nat num_paths in
  exists (plot : path_plot) (g' : rng),
    plot_of (interactive_tab S K T r sigma option_type num_paths true g) =
      Some (Some plot) /\
    generator_of (interactive_tab S K T r sigma option_type num_paths true g) =
      Some g' /\
    (forall k, g' k = g (n + 500 + k)%nat) /\
    length (t_grid plot) = 101%nat /\
    length (series plot) = 5%nat /\
    (forall i j, (i <= 100)%nat -> (j < 5)%nat ->
       t_grid plot !! i = Some (Fin (INR i * (T / INR 100))) /\
       exists col : ndarray,
         series plot !! j = Some col /\
         length col = length (t_grid plot) /\
         col !! i =
           Some (path_value S (T / INR 100) r sigma 5 (drop_draws n g) i j)).
Proof.
  intros Hside n.
  destruct (sidebar_parameters_bounds _ _ _ _ _ _ _ Hside)
    as (_ & _ & HT & _ & _ & _ & Hn).
  destruct (interactive_tab_run_shown S K T r sigma option_type num_paths g)
    as (price & S_T & cols & g' & _ & Htab & Hgen & Hlen & Hcols);
    [lra | lia |].
  destruct (linspace_points 0 T (100 + 1)) as (Haxis & Hpoints & _); [lia |].
  eexists _, g'. rewrite Htab. cbn [plot_of generator_of t_grid series].
  split; [reflexivity |]. split; [reflexivity |]. split; [exact Hgen |].
  split; [exact Haxis |]. split; [exact Hlen |].
  intros i j Hi Hj. split.
  - rewrite Hpoints by lia. do 2 f_equal.
    replace (100 + 1 - 1)%nat with 100%nat by lia. lra.
  - destruct (Hcols j Hj) as (col & Hcol & Hcollen & Hent).
    exists col. split; [exact Hcol |].
    split; [transitivity 101%nat; [exact Hcollen | symmetry; exact Haxis] |].
    now apply Hent.
Qed.

Lemma tab_plot_shown_witness :
  sidebar_parameters 100 100 1 0.05 0.2 "call" 10000 /\
  exists (plot : path_plot),
    plot_of (interactive_tab 100 100 1 0.05 0.2 "call" 10000 true
               (fun _ => 0)) = Some (Some plot) /\
    length (t_grid plot) = 101%nat /\
    length (series plot) = 5%nat.
Proof.
  split; [exact default_parameters_admitted |].
  destruct (tab_plot_shown 100 100 1 0.05 0.2 "call" 10000 (fun _ => 0)
              default_parameters_admitted)
    as (plot & g' & Hplot & _ & _ & Haxis & Hseries & _).
  exists plot. split; [exact Hplot |]. split; [exact Haxis | exact Hseries].
Defined.

(** X20.  The reset callback and the sidebar agree: the keys the callback
    writes are exactly the keys of the declared widgets, the value it
    writes under each key is the value that widget shows on a fresh
    session, and that value is within the widget's declared bounds or
    options. *)
Theorem reset_matches_widgets (session_state : gmap string value) :
  map widget_key sidebar_widgets = reset_keys /\
  (forall w, In w sidebar_widgets ->
     reset_parameters session_state !! widget_key w = widget_initial w /\
     exists v, widget_initial w = Some v /\ widget_admits w v).
Proof.
  split; [reflexivity |].
  intros w Hin. unfold sidebar_widgets in Hin.
  repeat (destruct Hin as [<- | Hin];
    [split;
     [unfold reset_parameters; cbn [widget_key widget_initial];
      simplify_map_eq; reflexivity
     | eexists; split; [reflexivity |]; cbn; try lra; try lia; auto] |]).
  now destruct Hin.
Qed.

Lemma reset_matches_widgets_witness :
  In (FloatSlider "T_slider" 0.1 5.0 1.0) sidebar_widgets /\
  reset_parameters ∅ !! "T_slider" = Some (VFloat 1.0).
Proof.
  assert (Hin : In (FloatSlider "T_slider" 0.1 5.0 1.0) sidebar_widgets)
    by (unfold sidebar_widgets; auto 10 using in_eq, in_cons).
  split; [exact Hin |].
  destruct (reset_matches_widgets ∅) as [_ Hw].
  destruct (Hw _ Hin) as [Hreset _]. exact Hreset.
Defined.

(** X21.  Resetting forgets what the widgets held: resetting twice is
    resetting once, and two session states that differ only under the
    reset keys are equal after a reset. *)
Theorem reset_parameters_idempotent (st1 st2 : gmap string value) :
  reset_parameters (reset_parameters st1) = reset_parameters st1 /\
  ((forall k : string, k ∉ reset_keys -> st1 !! k = st2 !! k) ->
   reset_parameters st1 = reset_parameters st2).
Proof.
  assert (Hkeys : forall (st : gmap string value) (k : string),
            k ∈ reset_keys ->
            reset_parameters st !! k = reset_parameters ∅ !! k).
  { intros st k Hk. unfold reset_keys in Hk. unfold reset_parameters.
    repeat (apply elem_of_cons in Hk as [-> | Hk];
            [simplify_map_eq; reflexivity |]).
    now apply elem_of_nil in Hk. }
  assert (Hother : forall (st : gmap string value) (k : string),
            k ∉ reset_keys -> reset_parameters st !! k = st !! k).
  { intros st k Hk. unfold reset_parameters.
    rewrite !lookup_insert_ne; [reflexivity | ..];
      intros <-; apply Hk; unfold reset_keys; set_solver. }
  split.
  - apply map_eq. intros k. destruct (decide (k ∈ reset_keys)) as [Hk | Hk].
    + rewrite (Hkeys (reset_parameters st1) k Hk), (Hkeys st1 k Hk).
      reflexivity.
    + now rewrite (Hother (reset_parameters st1) k Hk).
  - intros Hagree. apply map_eq. intros k.
    destruct (decide (k ∈ reset_keys)) as [Hk | Hk].
    + rewrite (Hkeys st1 k Hk), (Hkeys st2 k Hk). reflexivity.
    + rewrite (Hother st1 k Hk), (Hother st2 k Hk). now apply Hagree.
Qed.

Lemma reset_parameters_idempotent_witness :
  reset_parameters {["S_slider" := VFloat 75]} =
  reset_parameters {["S_slider" := VFloat 120]}.
Proof.
  apply (reset_parameters_idempotent {["S_slider" := VFloat 75]}
           {["S_slider" := VFloat 120]}).
  intros k Hk.
  assert (Hne : "S_slider" <> k).
  { intros <-. apply Hk. unfold reset_keys. apply elem_of_cons. now left. }
  now rewrite !lookup_singleton_ne.
Defined.
